(** * ibnet::core::IbNodeConfStringReader

    A shallow embedding of [IbNodeConfStringReader::Read]
    (ibdxnet/src/ibnet/core/IbNodeConfStringReader.cpp) together with the two
    collaborators it calls, [sys::StringUtils::Split] and
    [IbNodeConf::AddEntry], and the properties of the node configuration
    string reader that follow from them. *)

From Stdlib Require Import String Ascii List Bool Arith Lia.
Import ListNotations.
Open Scope string_scope.

(** ** sys::StringUtils *)

Module StringUtils.

(** Modelled from the spec: the whitespace class of the tokenizer ("space,
    tab, and other standard whitespace characters"); ibnet/sys/StringUtils
    is not among the sources.  The standard whitespace characters are
    space (32) and the control characters 9 to 13 (tab, line feed, vertical
    tab, form feed, carriage return). *)
Definition isspace (c : ascii) : bool :=
  let n := nat_of_ascii c in
  ((n =? 32) || ((9 <=? n) && (n <=? 13)))%nat.

(** Modelled from the spec: the tokenizer "never returns empty-string
    tokens"; the token under construction is emitted unless it is empty. *)
Definition flush (cur : string) : list string :=
  match cur with
  | "" => []
  | String _ _ => [cur]
  end.

(** Modelled from the spec: the left-to-right scan of the tokenizer; [cur]
    is the token read so far, a whitespace character ends it. *)
Fixpoint split_from (cur text : string) : list string :=
  match text with
  | "" => flush cur
  | String c rest =>
      if isspace c then flush cur ++ split_from "" rest
      else split_from (cur ++ String c "") rest
  end.

(** Modelled from the spec: [sys::StringUtils::Split(text)] (its body,
    ibnet/sys/StringUtils.cpp, is not among the sources): splits [text] on
    contiguous runs of whitespace, returns the non-empty fragments in
    left-to-right order of appearance, always succeeds. *)
Definition Split (text : string) : list string := split_from "" text.

End StringUtils.

Import StringUtils.

(** ** Tokens, in the words of the specification *)

(** Every character of [s] is whitespace. *)
Fixpoint all_space (s : string) : bool :=
  match s with
  | "" => true
  | String c rest => isspace c && all_space rest
  end.

(** No character of [s] is whitespace. *)
Fixpoint no_space (s : string) : bool :=
  match s with
  | "" => true
  | String c rest => negb (isspace c) && no_space rest
  end.

Definition nonempty (s : string) : bool :=
  match s with
  | "" => false
  | String _ _ => true
  end.

(** A token candidate: a non-empty string without whitespace. *)
Definition is_token (t : string) : bool := nonempty t && no_space t.

(** [Tokenized s ts]: [ts] are the maximal non-empty whitespace-delimited
    substrings of [s], from left to right.  The source is a run of
    whitespace (possibly empty), then either nothing more, or a token that
    reaches the end of the source, or a token followed by a whitespace
    character and the tokenization of what follows it. *)
Inductive Tokenized : string -> list string -> Prop :=
| Tokenized_none (ws : string) :
    all_space ws = true -> Tokenized ws []
| Tokenized_last (ws t : string) :
    all_space ws = true -> is_token t = true -> Tokenized (ws ++ t) [t]
| Tokenized_more (ws t : string) (c : ascii) (rest : string)
    (ts : list string) :
    all_space ws = true -> is_token t = true -> isspace c = true ->
    Tokenized rest ts -> Tokenized (ws ++ t ++ String c rest) (t :: ts).

(** The number of tokens of a text, counted on the text itself: a token starts
    at every non-whitespace character that is the first one of the text or
    follows a whitespace character. *)
Fixpoint count_tokens_from (in_token : bool) (text : string) : nat :=
  match text with
  | "" => 0
  | String c rest =>
      if isspace c then count_tokens_from false rest
      else (if in_token then 0 else 1) + count_tokens_from true rest
  end.

Definition count_tokens (text : string) : nat := count_tokens_from false text.

(** ** ibnet::core::IbNodeConfStringReader *)

(** The reader object: its only member is the stored source string. *)
Record IbNodeConfStringReader : Type := { m_str : string }.

(** [IbNodeConfStringReader::IbNodeConfStringReader(const std::string& str)]:
    the member initializer [m_str(str)] and an empty body. *)
Definition construct (str : string) : IbNodeConfStringReader :=
  {| m_str := str |}.

(** A call that leaves the reader: the tokenizer with its argument, or the
    entry insertion with its argument and the exception it threw, if any. *)
Inductive Call (Exn : Type) : Type :=
| CallSplit (text : string)
| CallAddEntry (descriptor : string) (thrown : option Exn).

Arguments CallSplit {Exn} text.
Arguments CallAddEntry {Exn} descriptor thrown.

(** What a call of a member function can see and change: the reader object
    and the sequence of collaborator calls made so far. *)
Record Machine (Exn : Type) : Type :=
  { this : IbNodeConfStringReader; calls : list (Call Exn) }.

Arguments this {Exn} m.
Arguments calls {Exn} m.

(** Recording one more call. *)
Definition log_call {Exn : Type} (c : Call Exn) (m : Machine Exn) :
    Machine Exn :=
  {| this := this m; calls := calls m ++ [c] |}.

(** The machine in which a reader constructed with [str] lives, after the
    collaborator calls [log]. *)
Definition state_of {Exn : Type} (str : string) (log : list (Call Exn)) :
    Machine Exn :=
  {| this := construct str; calls := log |}.

Section Reader.

(** The collaborator class [IbNodeConf] as [Read] uses it: a default
    constructor and [AddEntry], which either updates the configuration or
    throws. *)
Variables Conf Exn : Type.
Variable conf_new : Conf.
Variable AddEntry : Conf -> string -> Exn + Conf.

(** Computations that run on the machine and end with a value or with an
    exception; the machine survives an exception. *)
Definition Exec (A : Type) : Type := Machine Exn -> (Exn + A) * Machine Exn.

Definition ret {A : Type} (a : A) : Exec A := fun m => (inr a, m).

Definition bind {A B : Type} (x : Exec A) (k : A -> Exec B) : Exec B :=
  fun m =>
    match x m with
    | (inl e, m') => (inl e, m')
    | (inr a, m') => k a m'
    end.

Notation "x <- c ;; k" := (bind c (fun x => k))
  (at level 61, c at next level, right associativity).

(** Reading the member [m_str]. *)
Definition get_m_str : Exec string := fun m => (inr (m_str (this m)), m).

(** [sys::StringUtils::Split(text)]: never throws. *)
Definition call_Split (text : string) : Exec (list string) :=
  fun m => (inr (Split text), log_call (CallSplit text) m).

(** [conf.AddEntry(it)]: the updated configuration, or the exception. *)
Definition call_AddEntry (conf : Conf) (it : string) : Exec Conf :=
  fun m =>
    match AddEntry conf it with
    | inl e => (inl e, log_call (CallAddEntry it (Some e)) m)
    | inr conf' => (inr conf', log_call (CallAddEntry it None) m)
    end.

(** The range-based [for] over a vector of strings, with the object the
    body updates threaded through. *)
Fixpoint for_each (items : list string) (body : Conf -> string -> Exec Conf)
    (conf : Conf) : Exec Conf :=
  match items with
  | [] => ret conf
  | it :: rest => conf' <- body conf it ;; for_each rest body conf'
  end.

(** [IbNodeConf IbNodeConfStringReader::Read(void)]. *)
Definition Read : Exec Conf :=
  let conf := conf_new in
  str <- get_m_str ;;
  tokens <- call_Split str ;;
  conf <- for_each tokens call_AddEntry conf ;;
  ret conf.

End Reader.

Arguments ret {Exn A} a m.
Arguments bind {Exn A B} x k m.
Arguments get_m_str {Exn} m.
Arguments call_Split {Exn} text m.
Arguments call_AddEntry {Conf Exn} AddEntry conf it m.
Arguments for_each {Conf Exn} items body conf m.
Arguments Read {Conf Exn} conf_new AddEntry m.

(** ** Reading a call log *)

Section Logs.

Context {Exn : Type}.

(** The arguments of the [Split] calls, in call order. *)
Definition split_texts (cs : list (Call Exn)) : list string :=
  flat_map (fun c => match c with CallSplit text => [text] | _ => [] end) cs.

(** The arguments of the [AddEntry] calls, in call order. *)
Definition descriptors (cs : list (Call Exn)) : list string :=
  flat_map (fun c => match c with CallAddEntry d _ => [d] | _ => [] end) cs.

End Logs.

(** ** The collaborator class IbNodeConf *)

(** Modelled from the spec: the class [IbNodeConf] (ibnet/core/IbNodeConf is
    not among the sources), "an ordered collection of node descriptor
    entries, built incrementally": the entries are the raw descriptor
    strings in insertion order. *)
Record IbNodeConf : Type := { m_entries : list string }.

(** Modelled from the spec: the default constructor of [IbNodeConf], an empty
    collection. *)
Definition IbNodeConf_new : IbNodeConf := {| m_entries := [] |}.

(** Modelled from the spec: [IbNodeConf::AddEntry(descriptor) -> void | Error]
    (ibnet/core/IbNodeConf is not among the sources).  Which descriptors
    are malformed is not observable from the reader: [refuse] gives the
    failure, if any, for a descriptor and the entries already present.  An
    accepted descriptor becomes the last entry. *)
Definition IbNodeConf_AddEntry {Exn : Type}
    (refuse : list string -> string -> option Exn)
    (conf : IbNodeConf) (descriptor : string) : Exn + IbNodeConf :=
  match refuse (m_entries conf) descriptor with
  | Some e => inl e
  | None => inr {| m_entries := m_entries conf ++ [descriptor] |}
  end.

(** ** Sample sources and collaborators *)

(** A collaborator that refuses the descriptor "b" and accepts the others. *)
Definition refuse_b (entries : list string) (d : string) : option string :=
  if String.eqb d "b" then Some "malformed descriptor" else None.

(** A source of two spaces, a tab and a line feed. *)
Definition blank_source : string :=
  String " " (String " "
    (String (ascii_of_nat 9) (String (ascii_of_nat 10) ""))).

(** A delimiter of several whitespace characters: space, tab, space. *)
Definition wide_gap : string :=
  String " " (String (ascii_of_nat 9) (String " " "")).

(** A collaborator that accepts every descriptor. *)
Definition accept_all (entries : list string) (d : string) : option string :=
  None.

(** A collaborator that refuses every descriptor. *)
Definition refuse_all (entries : list string) (d : string) : option string :=
  Some "malformed descriptor".

(** ** The calls made by one run *)

(** The calls recorded in [m'] that were not yet recorded in [m]. *)
Definition calls_since {Exn : Type} (m m' : Machine Exn) : list (Call Exn) :=
  skipn (List.length (calls m)) (calls m').

(** The collaborator calls made by [Read] when it is started in [m]. *)
Definition Read_calls {Conf Exn : Type} (conf_new : Conf)
    (AddEntry : Conf -> string -> Exn + Conf) (m : Machine Exn) :
    list (Call Exn) :=
  calls_since m (snd (Read conf_new AddEntry m)).

(** The record of an [AddEntry] call that returned. *)
Definition returned {Exn : Type} (d : string) : Call Exn :=
  CallAddEntry d None.

Definition is_AddEntry_call {Exn : Type} (c : Call Exn) : bool :=
  match c with
  | CallAddEntry _ _ => true
  | CallSplit _ => false
  end.

(** ** The reader's lifetime and the insertion it performs *)

(** [IbNodeConfStringReader::~IbNodeConfStringReader(void)]: an empty body;
    no collaborator is called. *)
Definition destroy {Exn : Type} (m : Machine Exn) :
    (Exn + unit) * Machine Exn :=
  (inr tt, m).

(** Inserting descriptors one after the other into one configuration and
    stopping at the first exception, without the machine: the reference the
    loop of [Read] is compared with. *)
Fixpoint insert_in_order {Conf Exn : Type}
    (AddEntry : Conf -> string -> Exn + Conf) (conf : Conf)
    (ds : list string) : Exn + Conf :=
  match ds with
  | [] => inr conf
  | d :: rest =>
      match AddEntry conf d with
      | inl e => inl e
      | inr conf' => insert_in_order AddEntry conf' rest
      end
  end.

(** The records of the [AddEntry] calls of that insertion, the throwing call
    included. *)
Fixpoint insertion_calls {Conf Exn : Type}
    (AddEntry : Conf -> string -> Exn + Conf) (conf : Conf)
    (ds : list string) : list (Call Exn) :=
  match ds with
  | [] => []
  | d :: rest =>
      match AddEntry conf d with
      | inl e => [CallAddEntry d (Some e)]
      | inr conf' => returned d :: insertion_calls AddEntry conf' rest
      end
  end.

(** A caller that calls [Read] [n] times in a row on the same reader,
    whatever each call ends with: the outcomes in call order. *)
Fixpoint Read_times {Conf Exn : Type} (conf_new : Conf)
    (AddEntry : Conf -> string -> Exn + Conf) (n : nat) (m : Machine Exn) :
    list (Exn + Conf) * Machine Exn :=
  match n with
  | 0 => ([], m)
  | S n' =>
      let (out, m') := Read conf_new AddEntry m in
      let (outs, m'') := Read_times conf_new AddEntry n' m' in
      (out :: outs, m'')
  end.

(** ** Strings *)

Section StringFacts.

Lemma append_nil_r (s : string) : s ++ "" = s.
Proof. induction s as [|c s IH]; simpl; [reflexivity | now rewrite IH]. Qed.

Lemma append_assoc (a b c : string) : (a ++ b) ++ c = a ++ (b ++ c).
Proof. induction a as [|x a IH]; simpl; [reflexivity | now rewrite IH]. Qed.

Lemma append_snoc (a : string) (c : ascii) (b : string) :
  (a ++ String c "") ++ b = a ++ String c b.
Proof. now rewrite append_assoc. Qed.

End StringFacts.

(** ** The tokenizer meets the declarative description *)

Section SplitFacts.

Lemma flush_token (t : string) : nonempty t = true -> flush t = [t].
Proof. destruct t; simpl; [discriminate | reflexivity]. Qed.

Lemma split_from_space (cur : string) (c : ascii) (rest : string) :
  isspace c = true ->
  split_from cur (String c rest) = (flush cur ++ Split rest)%list.
Proof. intros Hc. simpl. now rewrite Hc. Qed.

Lemma split_from_no_space (t : string) :
  forall cur rest, no_space t = true ->
    split_from cur (t ++ rest) = split_from (cur ++ t) rest.
Proof.
  induction t as [|c t IH]; intros cur rest Ht; simpl in *.
  - now rewrite append_nil_r.
  - apply andb_true_iff in Ht as [Hc Ht].
    apply negb_true_iff in Hc. rewrite Hc.
    rewrite IH by assumption. now rewrite append_snoc.
Qed.

Lemma Split_skip_space (ws rest : string) :
  all_space ws = true -> Split (ws ++ rest) = Split rest.
Proof.
  induction ws as [|c ws IH]; intros Hws; simpl in *; [reflexivity|].
  apply andb_true_iff in Hws as [Hc Hws].
  unfold Split in *. simpl. rewrite Hc. simpl. now apply IH.
Qed.

Lemma Split_all_space (ws : string) : all_space ws = true -> Split ws = [].
Proof.
  intros Hws. rewrite <- (append_nil_r ws).
  now rewrite Split_skip_space.
Qed.

Lemma Split_token_first (t rest : string) :
  no_space t = true -> Split (t ++ rest) = split_from t rest.
Proof. intros Ht. unfold Split. now rewrite split_from_no_space. Qed.

(** Any text that decomposes into whitespace runs and tokens is split into
    exactly those tokens. *)
Lemma Tokenized_Split (s : string) (ts : list string) :
  Tokenized s ts -> Split s = ts.
Proof.
  induction 1 as [ws Hws | ws t Hws Ht | ws t c rest ts Hws Ht Hc _ IH].
  - now apply Split_all_space.
  - apply andb_true_iff in Ht as [Hne Ht].
    rewrite Split_skip_space by assumption.
    rewrite <- (append_nil_r t) at 1.
    rewrite Split_token_first by assumption. simpl.
    now apply flush_token.
  - apply andb_true_iff in Ht as [Hne Ht].
    rewrite Split_skip_space by assumption.
    rewrite Split_token_first by assumption.
    rewrite split_from_space by assumption.
    rewrite flush_token by assumption. simpl. now rewrite IH.
Qed.

Lemma Tokenized_leading_space (c : ascii) (s : string) (ts : list string) :
  isspace c = true -> Tokenized s ts -> Tokenized (String c s) ts.
Proof.
  intros Hc H.
  inversion H as [ws Hws | ws t Hws Ht | ws t c' rest ts' Hws Ht Hc' Hrest];
    subst.
  - apply Tokenized_none. simpl. now rewrite Hc.
  - apply (Tokenized_last (String c ws)); [simpl; now rewrite Hc | assumption].
  - apply (Tokenized_more (String c ws)); try assumption. simpl. now rewrite Hc.
Qed.

Lemma no_space_snoc (cur : string) (c : ascii) :
  no_space cur = true -> isspace c = false ->
  no_space (cur ++ String c "") = true.
Proof.
  induction cur as [|x cur IH]; simpl; intros Hcur Hc.
  - now rewrite Hc.
  - apply andb_true_iff in Hcur as [Hx Hcur]. rewrite Hx. simpl. now apply IH.
Qed.

(** The scan invariant: with a whitespace-free token [cur] under
    construction, the scan of [text] yields the tokens of [cur ++ text]. *)
Lemma split_from_Tokenized (text : string) :
  forall cur, no_space cur = true ->
    Tokenized (cur ++ text) (split_from cur text).
Proof.
  induction text as [|c rest IH]; intros cur Hcur.
  - rewrite append_nil_r. simpl. destruct cur as [|x cur'].
    + now apply Tokenized_none.
    + simpl. apply (Tokenized_last "" (String x cur')); [reflexivity|].
      unfold is_token. now rewrite Hcur.
  - simpl. destruct (isspace c) eqn:Hc.
    + specialize (IH "" eq_refl). simpl in IH.
      destruct cur as [|x cur']; simpl.
      * now apply Tokenized_leading_space.
      * apply (Tokenized_more "" (String x cur') c rest);
          [reflexivity | | assumption | assumption].
        unfold is_token. now rewrite Hcur.
    + rewrite <- append_snoc. apply IH. now apply no_space_snoc.
Qed.

Lemma Split_Tokenized (s : string) : Tokenized s (Split s).
Proof. exact (split_from_Tokenized s "" eq_refl). Qed.

Lemma split_from_length (text : string) :
  forall cur,
    List.length (split_from cur text)
    = (if nonempty cur then 1 else 0) + count_tokens_from (nonempty cur) text.
Proof.
  induction text as [|c rest IH]; intros cur; simpl.
  - destruct cur; reflexivity.
  - destruct (isspace c) eqn:Hc.
    + rewrite length_app. rewrite (IH ""). simpl. destruct cur; reflexivity.
    + rewrite IH.
      assert (Hne : nonempty (cur ++ String c "") = true)
        by (destruct cur; reflexivity).
      rewrite Hne. destruct cur; reflexivity.
Qed.

Lemma Split_length (s : string) : List.length (Split s) = count_tokens s.
Proof. unfold Split, count_tokens. now rewrite split_from_length. Qed.

Lemma Tokenized_tokens (s : string) (ts : list string) :
  Tokenized s ts -> Forall (fun t => is_token t = true) ts.
Proof. induction 1; auto. Qed.

End SplitFacts.

(** ** Whitespace runs as delimiters *)

Section Delimiters.

Lemma split_from_delimiter (a : string) (c : ascii) (rest : string) :
  isspace c = true ->
  forall cur,
    split_from cur (a ++ String c rest) = (split_from cur a ++ Split rest)%list.
Proof.
  intros Hc. induction a as [|x a IH]; intros cur; simpl.
  - now rewrite Hc.
  - destruct (isspace x).
    + rewrite IH. now rewrite app_assoc.
    + apply IH.
Qed.

(** A non-empty run of whitespace between two texts separates their tokens,
    however long the run is. *)
Lemma Split_delimiter (a sep b : string) :
  all_space sep = true -> nonempty sep = true ->
  Split (a ++ sep ++ b) = (Split a ++ Split b)%list.
Proof.
  intros Hsep Hne. destruct sep as [|c sep]; [discriminate|].
  simpl in Hsep. apply andb_true_iff in Hsep as [Hc Hsep].
  unfold Split at 1. simpl. rewrite split_from_delimiter by assumption.
  now rewrite Split_skip_space.
Qed.

(** Whitespace at the end of a text adds no token. *)
Lemma Split_trailing_space (a ws : string) :
  all_space ws = true -> Split (a ++ ws) = Split a.
Proof.
  intros Hws. destruct ws as [|c ws].
  - now rewrite append_nil_r.
  - rewrite <- (append_nil_r (String c ws)).
    rewrite Split_delimiter by (assumption || reflexivity).
    apply app_nil_r.
Qed.

End Delimiters.

(** ** How a run of [Read] unfolds *)

Section RunFacts.

Variables Conf Exn : Type.
Variable conf_new : Conf.
Variable AddEntry : Conf -> string -> Exn + Conf.

Local Abbreviation loop := (for_each (Exn := Exn)).
Local Abbreviation insert := (call_AddEntry AddEntry).
Local Abbreviation ok := (returned (Exn := Exn)).

Lemma machine_eta (m : Machine Exn) :
  {| this := this m; calls := calls m ++ [] |} = m.
Proof. destruct m; simpl. now rewrite app_nil_r. Qed.

Lemma split_texts_returned (ds : list string) :
  split_texts (map ok ds) = [].
Proof. induction ds as [|d ds IH]; simpl; [reflexivity | exact IH]. Qed.

Lemma descriptors_returned (ds : list string) :
  descriptors (map ok ds) = ds.
Proof. induction ds as [|d ds IH]; simpl; [reflexivity | now rewrite IH]. Qed.

Lemma is_AddEntry_call_returned (ds : list string) :
  forallb is_AddEntry_call (map ok ds) = true.
Proof. induction ds as [|d ds IH]; simpl; [reflexivity | exact IH]. Qed.

(** The two shapes of the call sequence of a run, read as logs. *)
Lemma log_of_returning_run (text : string) (ds : list string) :
  split_texts (CallSplit text :: map ok ds) = [text]
  /\ descriptors (CallSplit text :: map ok ds) = ds.
Proof.
  change (text :: split_texts (map ok ds) = [text]
          /\ descriptors (map ok ds) = ds).
  now rewrite split_texts_returned, descriptors_returned.
Qed.

Lemma log_of_throwing_run (text : string) (pre : list string) (it : string)
    (e : Exn) :
  split_texts (CallSplit text :: map ok pre ++ [CallAddEntry it (Some e)])
  = [text]
  /\ descriptors (CallSplit text :: map ok pre ++ [CallAddEntry it (Some e)])
     = (pre ++ [it])%list.
Proof.
  change (text :: split_texts (map ok pre ++ [CallAddEntry it (Some e)])
          = [text]
          /\ descriptors (map ok pre ++ [CallAddEntry it (Some e)])
             = (pre ++ [it])%list).
  unfold split_texts, descriptors. rewrite !flat_map_app.
  fold (split_texts (map ok pre)). fold (descriptors (map ok pre)).
  now rewrite split_texts_returned, descriptors_returned.
Qed.

Lemma not_thrown_returned (d : string) (e : Exn) (ds : list string) :
  ~ In (CallAddEntry d (Some e)) (map ok ds).
Proof.
  intros H. apply in_map_iff in H as (d' & Heq & _). discriminate Heq.
Qed.

(** One iteration of the loop whose [AddEntry] returns. *)
Lemma for_each_step (it : string) (rest : list string) (conf conf' : Conf)
    (m : Machine Exn) :
  AddEntry conf it = inr conf' ->
  loop (it :: rest) insert conf m
  = loop rest insert conf' (log_call (ok it) m).
Proof. intros H. simpl. unfold bind, call_AddEntry. now rewrite H. Qed.

(** One iteration of the loop whose [AddEntry] throws: the loop is left. *)
Lemma for_each_throw (it : string) (rest : list string) (conf : Conf) (e : Exn)
    (m : Machine Exn) :
  AddEntry conf it = inl e ->
  loop (it :: rest) insert conf m
  = (inl e, log_call (CallAddEntry it (Some e)) m).
Proof. intros H. simpl. unfold bind, call_AddEntry. now rewrite H. Qed.

(** The loop: the reader is untouched and the log grows by [AddEntry] calls
    only, one per item from the left.  A loop that ends normally has called
    [AddEntry] on every item; a loop that ends with an exception has called
    it on the items up to the one that threw, which is the last call. *)
Lemma for_each_run (items : list string) :
  forall (conf : Conf) (m : Machine Exn),
  exists evs : list (Call Exn),
    snd (loop items insert conf m)
      = {| this := this m; calls := calls m ++ evs |}
    /\ match fst (loop items insert conf m) with
       | inr _ => evs = map ok items
       | inl e =>
           exists pre it post,
             items = (pre ++ it :: post)%list
             /\ evs = (map ok pre ++ [CallAddEntry it (Some e)])%list
       end.
Proof.
  induction items as [|it rest IH]; intros conf m.
  - exists []. simpl. rewrite machine_eta. auto.
  - destruct (AddEntry conf it) as [e | conf'] eqn:Hadd.
    + rewrite (for_each_throw it rest conf e m Hadd).
      exists [CallAddEntry it (Some e)]. simpl.
      split; [reflexivity |]. now exists [], it, rest.
    + rewrite (for_each_step it rest conf conf' m Hadd).
      destruct (IH conf' (log_call (ok it) m)) as (evs & Hm & Hout).
      exists (ok it :: evs).
      rewrite Hm. simpl. rewrite <- app_assoc. simpl.
      split; [reflexivity |].
      destruct (fst (loop rest insert conf' _)) as [e | conf''].
      * destruct Hout as (pre & it' & post & Hitems & Hevs).
        exists (it :: pre), it', post. simpl. now rewrite Hitems, Hevs.
      * now rewrite Hout.
Qed.

(** The value or exception of the loop does not depend on the machine. *)
Lemma for_each_outcome (items : list string) :
  forall (conf : Conf) (m1 m2 : Machine Exn),
    fst (loop items insert conf m1) = fst (loop items insert conf m2).
Proof.
  induction items as [|it rest IH]; intros conf m1 m2; [reflexivity|].
  destruct (AddEntry conf it) as [e | conf'] eqn:Hadd.
  - now rewrite !(for_each_throw it rest conf e _ Hadd).
  - rewrite !(for_each_step it rest conf conf' _ Hadd). apply IH.
Qed.

Lemma Read_unfold (m : Machine Exn) :
  Read conf_new AddEntry m
  = loop (Split (m_str (this m))) insert conf_new
      (log_call (CallSplit (m_str (this m))) m).
Proof.
  unfold Read, bind, get_m_str, call_Split, ret.
  destruct (loop _ _ _ _) as [[e | conf] m']; reflexivity.
Qed.

Lemma skipn_length_app (A : Type) (l l' : list A) :
  skipn (List.length l) (l ++ l') = l'.
Proof. induction l as [|x l IH]; simpl; [reflexivity | exact IH]. Qed.

(** A whole run of [Read]: [Split] on the stored source first, then the
    calls of the loop over its tokens; the log of the machine grows by
    exactly these calls and the reader is untouched. *)
Lemma Read_run (m : Machine Exn) :
  snd (Read conf_new AddEntry m)
    = {| this := this m;
         calls := calls m ++ Read_calls conf_new AddEntry m |}
  /\ match fst (Read conf_new AddEntry m) with
     | inr _ =>
         Read_calls conf_new AddEntry m
         = CallSplit (m_str (this m)) :: map ok (Split (m_str (this m)))
     | inl e =>
         exists pre it post,
           Split (m_str (this m)) = (pre ++ it :: post)%list
           /\ Read_calls conf_new AddEntry m
              = CallSplit (m_str (this m))
                  :: (map ok pre ++ [CallAddEntry it (Some e)])%list
     end.
Proof.
  unfold Read_calls, calls_since. rewrite Read_unfold.
  destruct (for_each_run (Split (m_str (this m))) conf_new
              (log_call (CallSplit (m_str (this m))) m))
    as (evs & Hm & Hout).
  rewrite Hm. simpl. rewrite <- app_assoc. simpl.
  rewrite skipn_length_app. split; [reflexivity |].
  destruct (fst (loop _ _ _ _)) as [e | conf].
  - destruct Hout as (pre & it & post & Htok & Hevs).
    exists pre, it, post. now rewrite Hevs.
  - now rewrite Hout.
Qed.

Lemma Read_this (m : Machine Exn) :
  this (snd (Read conf_new AddEntry m)) = this m.
Proof. destruct (Read_run m) as [Hm _]. now rewrite Hm. Qed.

Lemma Read_outcome (m1 m2 : Machine Exn) :
  this m1 = this m2 ->
  fst (Read conf_new AddEntry m1) = fst (Read conf_new AddEntry m2).
Proof.
  intros H. rewrite !Read_unfold, H. apply for_each_outcome.
Qed.

End RunFacts.

Section ConfFacts.

Variable Exn : Type.
Variable refuse : list string -> string -> option Exn.

(** With the modelled [IbNodeConf], a loop that ends normally has appended
    the items, in order, to the entries. *)
Lemma for_each_entries (items : list string) :
  forall (conf conf' : IbNodeConf) (m : Machine Exn),
    fst (for_each items (call_AddEntry (IbNodeConf_AddEntry refuse)) conf m)
    = inr conf' ->
    m_entries conf' = (m_entries conf ++ items)%list.
Proof.
  induction items as [|it rest IH]; intros conf conf' m; simpl.
  - intros H. injection H as <-. now rewrite app_nil_r.
  - unfold bind, call_AddEntry, IbNodeConf_AddEntry.
    destruct (refuse (m_entries conf) it) as [e|]; [discriminate|].
    intros H. apply IH in H. rewrite H. simpl.
    now rewrite <- app_assoc.
Qed.

Lemma Read_entries (m : Machine Exn) (conf : IbNodeConf) :
  fst (Read IbNodeConf_new (IbNodeConf_AddEntry refuse) m) = inr conf ->
  m_entries conf = Split (m_str (this m)).
Proof.
  rewrite Read_unfold. intros H.
  now apply for_each_entries in H.
Qed.

(** When no descriptor among the items is refused, the loop ends normally. *)
Lemma for_each_accepts (items : list string) :
  forall (conf : IbNodeConf) (m : Machine Exn),
    (forall entries t, In t items -> refuse entries t = None) ->
    exists conf',
      fst (for_each items (call_AddEntry (IbNodeConf_AddEntry refuse)) conf m)
      = inr conf'.
Proof.
  induction items as [|it rest IH]; intros conf m Hok; simpl.
  - now exists conf.
  - unfold bind, call_AddEntry, IbNodeConf_AddEntry.
    rewrite (Hok (m_entries conf) it) by now left.
    apply IH. intros entries t Ht. apply Hok. now right.
Qed.

Lemma Read_accepts (m : Machine Exn) :
  (forall entries t,
      In t (Split (m_str (this m))) -> refuse entries t = None) ->
  exists conf,
    fst (Read IbNodeConf_new (IbNodeConf_AddEntry refuse) m) = inr conf.
Proof.
  intros Hok. rewrite Read_unfold.
  now apply for_each_accepts.
Qed.

End ConfFacts.

(** ** The example scenarios of the specification *)

Section Scenarios.

Local Abbreviation entries_of source :=
  (fst (Read IbNodeConf_new (IbNodeConf_AddEntry accept_all)
          (state_of source []))).

Example scenario_three_nodes :
  entries_of "node1 node2 node3"
  = inr {| m_entries := ["node1"; "node2"; "node3"] |}.
Proof. reflexivity. Qed.

Example scenario_empty_source :
  entries_of "" = inr {| m_entries := [] |}.
Proof. reflexivity. Qed.

Example scenario_surrounding_space :
  entries_of "  nodeA   nodeB  " = inr {| m_entries := ["nodeA"; "nodeB"] |}.
Proof. reflexivity. Qed.

Example scenario_single_node :
  entries_of "nodeX" = inr {| m_entries := ["nodeX"] |}.
Proof. reflexivity. Qed.

Example scenario_duplicate_nodes :
  entries_of "nodeA nodeA" = inr {| m_entries := ["nodeA"; "nodeA"] |}.
Proof. reflexivity. Qed.

(** A refused descriptor ends the run: "c" is never passed to [AddEntry]. *)
Example scenario_refused_descriptor :
  Read IbNodeConf_new (IbNodeConf_AddEntry refuse_b) (state_of "a b c" [])
  = (inl "malformed descriptor",
     state_of "a b c"
       [CallSplit "a b c"; CallAddEntry "a" None;
        CallAddEntry "b" (Some "malformed descriptor")]).
Proof. reflexivity. Qed.

End Scenarios.

(** ** Properties of the reader *)

(** C1: for every source [s], the node configuration that [Read] returns for
    a reader constructed with [s] has exactly one entry per maximal non-empty
    whitespace-delimited substring of [s]: its entry count is the number of
    tokens counted on [s] itself, and the number of tokens of every
    decomposition of [s] into whitespace runs and tokens. *)
Theorem Read_entry_count (Exn : Type)
    (refuse : list string -> string -> option Exn)
    (s : string) (log : list (Call Exn)) (conf : IbNodeConf) :
  fst (Read IbNodeConf_new (IbNodeConf_AddEntry refuse) (state_of s log))
  = inr conf ->
  List.length (m_entries conf) = count_tokens s
  /\ forall ts, Tokenized s ts -> List.length (m_entries conf) = List.length ts.
Proof.
  intros H. apply Read_entries in H. simpl in H. rewrite H.
  split.
  - apply Split_length.
  - intros ts Hts. now rewrite (Tokenized_Split s ts Hts).
Qed.

Lemma Read_entry_count_witness :
  List.length (m_entries {| m_entries := ["node1"; "node2"; "node3"] |})
  = count_tokens "node1 node2 node3"
  /\ forall ts,
       Tokenized "node1 node2 node3" ts ->
       List.length (m_entries {| m_entries := ["node1"; "node2"; "node3"] |})
       = List.length ts.
Proof.
  exact (Read_entry_count unit (fun _ _ => None) "node1 node2 node3" []
           {| m_entries := ["node1"; "node2"; "node3"] |} eq_refl).
Defined.

(** C2: the entries of the node configuration that [Read] returns are the
    tokens of the source in their left-to-right order of appearance, and
    each entry is the very string that was passed to [AddEntry]: the
    arguments of the [AddEntry] calls of the run, in call order, are the
    entries. *)
Theorem Read_entries_in_token_order (Exn : Type)
    (refuse : list string -> string -> option Exn)
    (s : string) (log : list (Call Exn)) (conf : IbNodeConf) :
  fst (Read IbNodeConf_new (IbNodeConf_AddEntry refuse) (state_of s log))
  = inr conf ->
  m_entries conf = Split s
  /\ Tokenized s (m_entries conf)
  /\ descriptors
       (Read_calls IbNodeConf_new (IbNodeConf_AddEntry refuse) (state_of s log))
     = m_entries conf.
Proof.
  intros H. pose proof (Read_entries Exn refuse _ _ H) as He.
  simpl in He. rewrite He.
  split; [reflexivity | split; [apply Split_Tokenized |]].
  destruct (Read_run IbNodeConf Exn IbNodeConf_new
              (IbNodeConf_AddEntry refuse) (state_of s log)) as [_ Hout].
  rewrite H in Hout. rewrite Hout. simpl.
  apply descriptors_returned.
Qed.

Lemma Read_entries_in_token_order_witness :
  m_entries {| m_entries := ["node1"; "node2"; "node3"] |}
  = Split "node1 node2 node3"
  /\ Tokenized "node1 node2 node3"
       (m_entries {| m_entries := ["node1"; "node2"; "node3"] |})
  /\ descriptors
       (Read_calls IbNodeConf_new (IbNodeConf_AddEntry (fun _ _ => @None unit))
          (state_of "node1 node2 node3" []))
     = m_entries {| m_entries := ["node1"; "node2"; "node3"] |}.
Proof.
  exact (Read_entries_in_token_order unit (fun _ _ => None)
           "node1 node2 node3" []
           {| m_entries := ["node1"; "node2"; "node3"] |} eq_refl).
Defined.

(** C3: when a call of [AddEntry] made by [Read] throws, [Read] ends with
    that very exception: it is neither caught nor replaced, and no node
    configuration is returned. *)
Theorem Read_propagates_failure (Conf Exn : Type) (conf_new : Conf)
    (AddEntry : Conf -> string -> Exn + Conf) (m : Machine Exn)
    (d : string) (e : Exn) :
  In (CallAddEntry d (Some e)) (Read_calls conf_new AddEntry m) ->
  fst (Read conf_new AddEntry m) = inl e
  /\ forall conf, fst (Read conf_new AddEntry m) <> inr conf.
Proof.
  intros Hin.
  destruct (Read_run Conf Exn conf_new AddEntry m) as [_ Hout].
  destruct (fst (Read conf_new AddEntry m)) as [e' | conf'].
  - destruct Hout as (pre & it & post & _ & Hc).
    rewrite Hc in Hin. destruct Hin as [Hin | Hin]; [discriminate |].
    apply in_app_or in Hin as [Hin | [Hin | []]].
    + now apply not_thrown_returned in Hin.
    + injection Hin as _ ->. split; [reflexivity | discriminate].
  - rewrite Hout in Hin. destruct Hin as [Hin | Hin]; [discriminate |].
    now apply not_thrown_returned in Hin.
Qed.

Lemma Read_propagates_failure_witness :
  fst (Read IbNodeConf_new (IbNodeConf_AddEntry refuse_b) (state_of "a b c" []))
  = inl "malformed descriptor"
  /\ forall conf,
       fst (Read IbNodeConf_new (IbNodeConf_AddEntry refuse_b)
              (state_of "a b c" []))
       <> inr conf.
Proof.
  apply (Read_propagates_failure IbNodeConf string IbNodeConf_new
           (IbNodeConf_AddEntry refuse_b) (state_of "a b c" []) "b").
  right. right. left. reflexivity.
Defined.

(** C4: calling [Read] again on the same reader, in the machine the first
    call left behind, ends in the same way as the first call: with an equal
    node configuration, or with the same exception. *)
Theorem Read_idempotent (Conf Exn : Type) (conf_new : Conf)
    (AddEntry : Conf -> string -> Exn + Conf) (m : Machine Exn) :
  fst (Read conf_new AddEntry (snd (Read conf_new AddEntry m)))
  = fst (Read conf_new AddEntry m).
Proof.
  apply Read_outcome. apply Read_this.
Qed.

(** C5: the constructor validates nothing: it stores every string as it is,
    whitespace or not, the empty string included; and for a source that is
    empty or consists of whitespace only [Read] returns a node configuration
    without entries. *)
Theorem Read_blank_source (Exn : Type)
    (refuse : list string -> string -> option Exn)
    (s : string) (log : list (Call Exn)) :
  all_space s = true ->
  (forall str, m_str (construct str) = str)
  /\ construct "" = {| m_str := "" |}
  /\ exists conf,
       fst (Read IbNodeConf_new (IbNodeConf_AddEntry refuse) (state_of s log))
       = inr conf
       /\ m_entries conf = [].
Proof.
  intros Hs.
  split; [intros str; reflexivity | split; [reflexivity |]].
  exists IbNodeConf_new. split; [| reflexivity].
  rewrite Read_unfold. simpl.
  now rewrite (Split_all_space s Hs).
Qed.

Lemma Read_blank_source_witness :
  (forall str, m_str (construct str) = str)
  /\ construct "" = {| m_str := "" |}
  /\ exists conf,
       fst (Read IbNodeConf_new (IbNodeConf_AddEntry refuse_b)
              (state_of blank_source []))
       = inr conf
       /\ m_entries conf = [].
Proof.
  exact (Read_blank_source string refuse_b blank_source [] eq_refl).
Defined.

(** C6: [Split] cuts its text at the runs of whitespace.  A non-empty run of
    whitespace characters between two texts, however long, separates their
    tokens like a single delimiter; whitespace before and after a text
    changes nothing; no token is empty or contains whitespace; and the
    tokens of a text are exactly its maximal non-empty whitespace-free
    substrings, from left to right. *)
Theorem Split_on_whitespace_runs (a b sep lead trail : string) :
  all_space sep = true -> nonempty sep = true ->
  all_space lead = true -> all_space trail = true ->
  Split (a ++ sep ++ b) = (Split a ++ Split b)%list
  /\ Split (lead ++ a ++ trail) = Split a
  /\ Forall (fun t => t <> "" /\ no_space t = true) (Split a)
  /\ Tokenized a (Split a)
  /\ forall ts, Tokenized a ts -> Split a = ts.
Proof.
  intros Hsep Hne Hlead Htrail.
  split; [now apply Split_delimiter |].
  split; [rewrite Split_skip_space by assumption;
          now apply Split_trailing_space |].
  split.
  - pose proof (Tokenized_tokens a (Split a) (Split_Tokenized a)) as Htok.
    eapply Forall_impl; [| exact Htok]. intros t Ht. simpl in Ht.
    apply andb_true_iff in Ht as [Hn Hns].
    split; [destruct t; [discriminate Hn | discriminate] | exact Hns].
  - split; [apply Split_Tokenized | apply Tokenized_Split].
Qed.

Lemma Split_on_whitespace_runs_witness :
  Split ("nodeA" ++ wide_gap ++ "nodeB")
  = (Split "nodeA" ++ Split "nodeB")%list
  /\ Split ("  " ++ "nodeA" ++ blank_source) = Split "nodeA"
  /\ Forall (fun t => t <> "" /\ no_space t = true) (Split "nodeA")
  /\ Tokenized "nodeA" (Split "nodeA")
  /\ forall ts, Tokenized "nodeA" ts -> Split "nodeA" = ts.
Proof.
  exact (Split_on_whitespace_runs "nodeA" "nodeB" wide_gap "  " blank_source
           eq_refl eq_refl eq_refl eq_refl).
Defined.

(** C7: [Read] neither merges, drops nor reorders repeated tokens: the
    entries of the returned node configuration are the tokens of the source,
    one entry per occurrence and in source order, so every string occurs
    among the entries as often as among the tokens; and a source that
    consists of one token written twice yields exactly two entries, both
    equal to that token. *)
Theorem Read_keeps_duplicates (Exn : Type)
    (refuse : list string -> string -> option Exn)
    (s : string) (log : list (Call Exn)) (conf : IbNodeConf) :
  fst (Read IbNodeConf_new (IbNodeConf_AddEntry refuse) (state_of s log))
  = inr conf ->
  m_entries conf = Split s
  /\ Tokenized s (m_entries conf)
  /\ (forall t, count_occ string_dec (m_entries conf) t
                = count_occ string_dec (Split s) t)
  /\ (forall t sep,
        is_token t = true -> all_space sep = true -> nonempty sep = true ->
        s = t ++ sep ++ t -> m_entries conf = [t; t]).
Proof.
  intros H. apply Read_entries in H. simpl in H. rewrite H.
  split; [reflexivity |].
  split; [apply Split_Tokenized |].
  split; [reflexivity |].
  intros t sep Ht Hsep Hne ->.
  assert (Hone : Split t = [t]).
  { apply Tokenized_Split.
    apply (Tokenized_last "" t); [reflexivity | exact Ht]. }
  rewrite Split_delimiter by assumption. now rewrite Hone.
Qed.

Lemma Read_keeps_duplicates_witness :
  (m_entries {| m_entries := ["a"; "c"; "a"; "d"] |} = Split "a c a d"
   /\ Tokenized "a c a d" (m_entries {| m_entries := ["a"; "c"; "a"; "d"] |}))
  /\ m_entries {| m_entries := ["nodeA"; "nodeA"] |} = ["nodeA"; "nodeA"].
Proof.
  exact (let ordered :=
           Read_keeps_duplicates string refuse_b "a c a d" []
             {| m_entries := ["a"; "c"; "a"; "d"] |} eq_refl in
         let twice :=
           Read_keeps_duplicates string refuse_b "nodeA nodeA" []
             {| m_entries := ["nodeA"; "nodeA"] |} eq_refl in
         conj (conj (proj1 ordered) (proj1 (proj2 ordered)))
           (proj2 (proj2 (proj2 twice))
              "nodeA" " " eq_refl eq_refl eq_refl eq_refl)).
Defined.

(** C8: [Read] leaves the reader as it found it, so the stored source is
    unchanged and the reader holds nothing it did not hold before, the
    returned node configuration included; the calls made before [Read] stay
    as they were, and [Read] adds to them only its call of [Split] on the
    source and the [AddEntry] calls that build the node configuration it
    returns. *)
Theorem Read_frame (Conf Exn : Type) (conf_new : Conf)
    (AddEntry : Conf -> string -> Exn + Conf) (m : Machine Exn) :
  this (snd (Read conf_new AddEntry m)) = this m
  /\ m_str (this (snd (Read conf_new AddEntry m))) = m_str (this m)
  /\ calls (snd (Read conf_new AddEntry m))
     = (calls m ++ Read_calls conf_new AddEntry m)%list
  /\ exists evs,
       Read_calls conf_new AddEntry m = CallSplit (m_str (this m)) :: evs
       /\ forallb is_AddEntry_call evs = true.
Proof.
  destruct (Read_run Conf Exn conf_new AddEntry m) as [Hm Hout].
  rewrite Hm. simpl.
  split; [reflexivity | split; [reflexivity | split; [reflexivity |]]].
  destruct (fst (Read conf_new AddEntry m)) as [e | conf].
  - destruct Hout as (pre & it & post & _ & Hc).
    exists (map returned pre ++ [CallAddEntry it (Some e)])%list.
    split; [exact Hc |].
    rewrite forallb_app, is_AddEntry_call_returned. reflexivity.
  - exists (map returned (Split (m_str (this m)))).
    split; [exact Hout | apply is_AddEntry_call_returned].
Qed.

(** C9, amended: [Read] ends for every source, with a value or with an
    exception.  It calls [Split] exactly once, first, on the stored source,
    and then [AddEntry] on the tokens from the left, each at most once: on
    all of them, once each, when [Read] returns, and otherwise on the tokens
    up to and including the one whose insertion throws, which is its last
    call. *)
Theorem Read_single_pass (Conf Exn : Type) (conf_new : Conf)
    (AddEntry : Conf -> string -> Exn + Conf) (m : Machine Exn) :
  exists (out : Exn + Conf) (m' : Machine Exn),
    Read conf_new AddEntry m = (out, m')
    /\ split_texts (Read_calls conf_new AddEntry m) = [m_str (this m)]
    /\ List.length (descriptors (Read_calls conf_new AddEntry m))
       <= List.length (Split (m_str (this m)))
    /\ match out with
       | inr _ =>
           Read_calls conf_new AddEntry m
           = CallSplit (m_str (this m))
               :: map returned (Split (m_str (this m)))
       | inl e =>
           exists pre it post,
             Split (m_str (this m)) = (pre ++ it :: post)%list
             /\ Read_calls conf_new AddEntry m
                = CallSplit (m_str (this m))
                    :: (map returned pre ++ [CallAddEntry it (Some e)])%list
       end.
Proof.
  destruct (Read_run Conf Exn conf_new AddEntry m) as [_ Hout].
  destruct (Read conf_new AddEntry m) as [out m'] eqn:HR. cbn [fst] in Hout.
  exists out, m'. split; [reflexivity |].
  destruct out as [e | conf].
  - destruct Hout as (pre & it & post & Htok & Hc).
    destruct (log_of_throwing_run Exn (m_str (this m)) pre it e)
      as [Hs Hd].
    rewrite Hc, Hs, Hd, Htok.
    split; [reflexivity |].
    split; [rewrite !length_app; simpl; lia |].
    exists pre, it, post. split; reflexivity.
  - destruct (log_of_returning_run Exn (m_str (this m))
                (Split (m_str (this m)))) as [Hs Hd].
    rewrite Hout, Hs, Hd.
    split; [reflexivity | split; [lia | reflexivity]].
Qed.

(** C9 as stated does not hold when an insertion throws: on the source "a b" with
    an [AddEntry] that refuses its descriptor, [AddEntry] is called for the
    first of the two tokens only. *)
Lemma Read_single_pass_counterexample :
  Split "a b" = ["a"; "b"]
  /\ Read_calls IbNodeConf_new (IbNodeConf_AddEntry refuse_all)
       (state_of "a b" [])
     = [CallSplit "a b"; CallAddEntry "a" (Some "malformed descriptor")]
  /\ descriptors
       (Read_calls IbNodeConf_new (IbNodeConf_AddEntry refuse_all)
          (state_of "a b" []))
     <> Split "a b".
Proof.
  split; [reflexivity | split; [reflexivity |]].
  vm_compute. discriminate.
Qed.

(** C10: for a source that is empty or consists of whitespace only, [Read]
    returns the empty node configuration whatever [AddEntry] does, because
    its only collaborator call is the one of [Split]. *)
Theorem Read_blank_never_fails (Conf Exn : Type) (conf_new : Conf)
    (AddEntry : Conf -> string -> Exn + Conf)
    (s : string) (log : list (Call Exn)) :
  all_space s = true ->
  Read conf_new AddEntry (state_of s log)
  = (inr conf_new, state_of s (log ++ [CallSplit s]))
  /\ Read_calls conf_new AddEntry (state_of s log) = [CallSplit s]
  /\ descriptors (Read_calls conf_new AddEntry (state_of s log)) = [].
Proof.
  intros Hs.
  assert (HR : Read conf_new AddEntry (state_of s log)
               = (inr conf_new, state_of s (log ++ [CallSplit s]))).
  { rewrite Read_unfold. simpl. now rewrite (Split_all_space s Hs). }
  assert (Hc : Read_calls conf_new AddEntry (state_of s log) = [CallSplit s]).
  { unfold Read_calls, calls_since. rewrite HR. simpl.
    apply skipn_length_app. }
  rewrite Hc. auto.
Qed.

Lemma Read_blank_never_fails_witness :
  Read IbNodeConf_new (IbNodeConf_AddEntry refuse_all)
    (state_of blank_source [])
  = (inr IbNodeConf_new,
     state_of blank_source ([] ++ [CallSplit blank_source]))
  /\ Read_calls IbNodeConf_new (IbNodeConf_AddEntry refuse_all)
       (state_of blank_source [])
     = [CallSplit blank_source]
  /\ descriptors
       (Read_calls IbNodeConf_new (IbNodeConf_AddEntry refuse_all)
          (state_of blank_source []))
     = [].
Proof.
  exact (Read_blank_never_fails IbNodeConf string IbNodeConf_new
           (IbNodeConf_AddEntry refuse_all) blank_source [] eq_refl).
Defined.

(** ** Further properties of the reader *)

Section InsertionFacts.

Variables Conf Exn : Type.
Variable conf_new : Conf.
Variable AddEntry : Conf -> string -> Exn + Conf.

Local Abbreviation loop := (for_each (Exn := Exn)).
Local Abbreviation insert := (call_AddEntry AddEntry).

(** The loop computes the insertion in order, whatever the machine. *)
Lemma for_each_insert_in_order (items : list string) :
  forall (conf : Conf) (m : Machine Exn),
    fst (loop items insert conf m) = insert_in_order AddEntry conf items.
Proof.
  induction items as [|it rest IH]; intros conf m; [reflexivity |].
  simpl insert_in_order.
  destruct (AddEntry conf it) as [e | conf'] eqn:Hadd.
  - now rewrite (for_each_throw Conf Exn AddEntry it rest conf e m Hadd).
  - rewrite (for_each_step Conf Exn AddEntry it rest conf conf' m Hadd).
    apply IH.
Qed.

(** The loop records the calls of the insertion, and nothing else. *)
Lemma for_each_insertion_calls (items : list string) :
  forall (conf : Conf) (m : Machine Exn),
    snd (loop items insert conf m)
    = {| this := this m;
         calls := calls m ++ insertion_calls AddEntry conf items |}.
Proof.
  induction items as [|it rest IH]; intros conf m.
  - simpl. now rewrite machine_eta.
  - simpl insertion_calls.
    destruct (AddEntry conf it) as [e | conf'] eqn:Hadd.
    + now rewrite (for_each_throw Conf Exn AddEntry it rest conf e m Hadd).
    + rewrite (for_each_step Conf Exn AddEntry it rest conf conf' m Hadd).
      rewrite IH. simpl. now rewrite <- app_assoc.
Qed.

Lemma insert_in_order_app (pre post : list string) :
  forall conf : Conf,
    insert_in_order AddEntry conf (pre ++ post)
    = match insert_in_order AddEntry conf pre with
      | inl e => inl e
      | inr conf' => insert_in_order AddEntry conf' post
      end.
Proof.
  induction pre as [|d pre IH]; intros conf; simpl; [reflexivity |].
  destruct (AddEntry conf d) as [e | conf']; [reflexivity | apply IH].
Qed.

(** A failing insertion has a first failing descriptor. *)
Lemma insert_in_order_throws (ds : list string) :
  forall (conf : Conf) (e : Exn),
    insert_in_order AddEntry conf ds = inl e ->
    exists pre it post conf',
      ds = (pre ++ it :: post)%list
      /\ insert_in_order AddEntry conf pre = inr conf'
      /\ AddEntry conf' it = inl e.
Proof.
  induction ds as [|d rest IH]; intros conf e H; simpl in H; [discriminate |].
  destruct (AddEntry conf d) as [e' | conf'] eqn:Hadd.
  - injection H as ->. now exists [], d, rest, conf.
  - destruct (IH conf' e H) as (pre & it & post & c & Hds & Hpre & Hit).
    exists (d :: pre), it, post, c. simpl. rewrite Hadd, Hds. auto.
Qed.

Lemma Read_calls_unfold (m : Machine Exn) :
  Read_calls conf_new AddEntry m
  = CallSplit (m_str (this m))
      :: insertion_calls AddEntry conf_new (Split (m_str (this m))).
Proof.
  unfold Read_calls, calls_since.
  rewrite Read_unfold, for_each_insertion_calls. simpl.
  rewrite <- app_assoc. simpl. apply skipn_length_app.
Qed.

Lemma Read_calls_this (m1 m2 : Machine Exn) :
  this m1 = this m2 ->
  Read_calls conf_new AddEntry m1 = Read_calls conf_new AddEntry m2.
Proof. intros H. now rewrite !Read_calls_unfold, H. Qed.

End InsertionFacts.

(** X1: whatever the collaborator and the calls made before, [Read] ends as
    the insertion of the tokens of the stored source, in order, into one
    default-constructed configuration does: every [AddEntry] acts on the
    configuration the previous one returned, and the first exception ends
    the insertion.  The calls [Read] makes are the one of [Split] followed
    by the calls of that insertion. *)
Theorem Read_is_ordered_insertion (Conf Exn : Type) (conf_new : Conf)
    (AddEntry : Conf -> string -> Exn + Conf) (m : Machine Exn) :
  fst (Read conf_new AddEntry m)
  = insert_in_order AddEntry conf_new (Split (m_str (this m)))
  /\ Read_calls conf_new AddEntry m
     = CallSplit (m_str (this m))
         :: insertion_calls AddEntry conf_new (Split (m_str (this m))).
Proof.
  split.
  - rewrite Read_unfold. apply for_each_insert_in_order.
  - apply Read_calls_unfold.
Qed.

(** X2: [Read] throws nothing of its own.  It ends with the exception [e]
    exactly when the tokens of the source have a first one whose insertion
    throws [e]: the tokens before it were inserted, in order, into the
    default-constructed configuration, and [AddEntry] throws [e] for it on
    the configuration they produced. *)
Theorem Read_failure_origin (Conf Exn : Type) (conf_new : Conf)
    (AddEntry : Conf -> string -> Exn + Conf) (m : Machine Exn) (e : Exn) :
  fst (Read conf_new AddEntry m) = inl e
  <-> exists pre it post conf,
        Split (m_str (this m)) = (pre ++ it :: post)%list
        /\ insert_in_order AddEntry conf_new pre = inr conf
        /\ AddEntry conf it = inl e.
Proof.
  rewrite Read_unfold, for_each_insert_in_order. split.
  - apply insert_in_order_throws.
  - intros (pre & it & post & conf & Htok & Hpre & Hit).
    rewrite Htok, insert_in_order_app, Hpre. simpl. now rewrite Hit.
Qed.

Lemma Read_failure_origin_witness :
  exists pre it post conf,
    Split (m_str (this (state_of (Exn := string) "a b c" [])))
    = (pre ++ it :: post)%list
    /\ insert_in_order (IbNodeConf_AddEntry refuse_b) IbNodeConf_new pre
       = inr conf
    /\ IbNodeConf_AddEntry refuse_b conf it = inl "malformed descriptor".
Proof.
  exact (proj1 (Read_failure_origin IbNodeConf string IbNodeConf_new
                  (IbNodeConf_AddEntry refuse_b) (state_of "a b c" [])
                  "malformed descriptor") eq_refl).
Defined.

(** X3: when the tokens of a source are the tokens of a first source
    followed by those of a second one, [Read] on it ends as [Read] on the
    first source followed by the insertion of the tokens of the second into
    the configuration it returned; when [Read] on the first source throws,
    [Read] on the whole source throws the same exception. *)
Theorem Read_joined_sources (Conf Exn : Type) (conf_new : Conf)
    (AddEntry : Conf -> string -> Exn + Conf)
    (s1 s2 s : string) (log1 log : list (Call Exn)) :
  Split s = (Split s1 ++ Split s2)%list ->
  fst (Read conf_new AddEntry (state_of s log))
  = match fst (Read conf_new AddEntry (state_of s1 log1)) with
    | inl e => inl e
    | inr conf => insert_in_order AddEntry conf (Split s2)
    end.
Proof.
  intros Htok. rewrite !Read_unfold, !for_each_insert_in_order. simpl.
  rewrite Htok. apply insert_in_order_app.
Qed.

Lemma Read_joined_sources_witness :
  fst (Read IbNodeConf_new (IbNodeConf_AddEntry refuse_b)
         (state_of "a  c d b e" []))
  = match fst (Read IbNodeConf_new (IbNodeConf_AddEntry refuse_b)
                 (state_of " a c" []))
    with
    | inl e => inl e
    | inr conf =>
        insert_in_order (IbNodeConf_AddEntry refuse_b) conf (Split "d b e")
    end.
Proof.
  exact (Read_joined_sources IbNodeConf string IbNodeConf_new
           (IbNodeConf_AddEntry refuse_b) " a c" "d b e" "a  c d b e" [] []
           eq_refl).
Defined.

(** X4: a reader can be read any number of times and then destroyed: each
    of [n] calls of [Read] in a row ends as the first one does, the reader
    is as it was, and the calls made up to the end of the destructor are
    the earlier ones followed by [n] times the calls of one [Read]. *)
Theorem Read_times_repeats (Conf Exn : Type) (conf_new : Conf)
    (AddEntry : Conf -> string -> Exn + Conf) (n : nat) (m : Machine Exn) :
  fst (Read_times conf_new AddEntry n m)
  = repeat (fst (Read conf_new AddEntry m)) n
  /\ this (snd (Read_times conf_new AddEntry n m)) = this m
  /\ calls (snd (destroy (snd (Read_times conf_new AddEntry n m))))
     = (calls m ++ concat (repeat (Read_calls conf_new AddEntry m) n))%list.
Proof.
  revert m. induction n as [|n IH]; intros m.
  - simpl. now rewrite app_nil_r.
  - simpl Read_times.
    pose proof (Read_this Conf Exn conf_new AddEntry m) as Hthis.
    destruct (Read_run Conf Exn conf_new AddEntry m) as [Hm _].
    destruct (Read conf_new AddEntry m) as [out m'] eqn:HR.
    cbn [fst snd] in Hthis, Hm.
    destruct (IH m') as (Houts & Hthis' & Hcalls).
    destruct (Read_times conf_new AddEntry n m') as [outs m''].
    cbn [fst snd destroy] in *.
    rewrite (Read_outcome Conf Exn conf_new AddEntry m' m Hthis) in Houts.
    rewrite (Read_calls_this Conf Exn conf_new AddEntry m' m Hthis) in Hcalls.
    rewrite HR in Houts. cbn [fst] in Houts.
    split; [now rewrite Houts |].
    split; [now rewrite Hthis' |].
    rewrite Hcalls, Hm. cbn [calls concat repeat].
    now rewrite app_assoc.
Qed.
